(** * selfdrive/debug/set_car_params.py

    A shallow embedding of the parameter seeder script and the properties
    of its runs.  The script is straight-line Python over three
    collaborators (route resolver, log reader, persistent store); a run is
    modelled as a computation in a state-and-exception monad over a world
    that holds the store and the trace of side effects. *)

From stdpp Require Import gmap strings list.

Local Open Scope string_scope.
Local Open Scope list_scope.

(** ** Exceptions and results *)

(** The exceptions a run can end with.  [NameError] and [IndexError] are
    raised by the script's own statements, [AttributeError] by reading a
    union member that is not the active one, the others by the
    collaborators. *)
Inductive exn : Type :=
| NameError (name : string)
| IndexError
| AttributeError
| ResolutionError
| LogReadError
| StoreWriteError.

Inductive Result (A : Type) : Type :=
| Ok (a : A)
| Raise (e : exn).
Arguments Ok {A} a.
Arguments Raise {A} e.

Definition bytes : Type := list Byte.byte.

(** ** Log records *)

(** A decoded log record is a tagged union; only the [carParams] variant
    carries a payload the script looks at.  [MsgOther] stands for every
    other variant, with its tag. *)
Inductive LogMessage (CP : Type) : Type :=
| MsgCarParams (cp : CP)
| MsgOther (tag : string).
Arguments MsgCarParams {CP} cp.
Arguments MsgOther {CP} tag.

(** [m.which()] *)
Definition which {CP : Type} (m : LogMessage CP) : string :=
  match m with
  | MsgCarParams _ => "carParams"
  | MsgOther tag => tag
  end.

(** [m.carParams]: reading a member that is not the active one raises. *)
Definition carParams {CP : Type} (m : LogMessage CP) : Result CP :=
  match m with
  | MsgCarParams cp => Ok cp
  | MsgOther _ => Raise AttributeError
  end.

(** ** The world: persistent store and trace of side effects *)

Inductive event : Type :=
| EvLogRead (path : string)
| EvPut (key : string) (value : bytes).

Record World : Type := mkWorld {
  store : gmap string bytes;
  trace : list event
}.

Definition initial_world : World := mkWorld ∅ [].

Definition is_put (e : event) : bool :=
  match e with EvPut _ _ => true | EvLogRead _ => false end.

Definition is_read (e : event) : bool :=
  match e with EvLogRead _ => true | EvPut _ _ => false end.

(** The store writes and the log reads of a trace, in order. *)
Definition puts (t : list event) : list event := List.filter is_put t.
Definition reads (t : list event) : list event := List.filter is_read t.

Definition put_key (e : event) : option string :=
  match e with EvPut k _ => Some k | EvLogRead _ => None end.

(** ** The monad of runs *)

Definition M (A : Type) : Type := World → Result A * World.

#[global] Instance M_ret : MRet M := λ A a w, (Ok a, w).
#[global] Instance M_bind : MBind M := λ A B f m w,
  match m w with
  | (Ok a, w') => f a w'
  | (Raise e, w') => (Raise e, w')
  end.

Definition raise {A : Type} (e : exn) : M A := λ w, (Raise e, w).

(** A call that has no effect on the world but may raise. *)
Definition call {A : Type} (r : Result A) : M A := λ w, (r, w).

Definition emit (e : event) : M unit :=
  λ w, (Ok tt, mkWorld (store w) (trace w ++ [e])).

(** [l[i]] *)
Definition index {A : Type} (l : list A) (i : nat) : M A :=
  match l !! i with
  | Some x => mret x
  | None => raise IndexError
  end.

(** [for x in l: body(x)] *)
Fixpoint for_each {A : Type} (l : list A) (body : A → M unit) : M unit :=
  match l with
  | [] => mret tt
  | x :: l' => body x ≫= λ _, for_each l' body
  end.

(** ** Module namespace *)

(** The names the script binds at module level before the branch on the
    argument count: the four imports and the assignment [CP = None].  The
    interpreter's own names ([__name__] and the like) and the builtins are
    left out; none of them is [car]. *)
Definition module_globals : list string :=
  ["sys"; "Params"; "Route"; "LogReader"; "CP"].

(** Reading a global name. *)
Definition load_global (name : string) : M unit :=
  if bool_decide (name ∈ module_globals) then mret tt
  else raise (NameError name).

(** ** Collaborators *)

(** What the script consumes from the libraries it imports.  [new_message]
    and [to_bytes] belong to the parameter schema, [Route] and [qlog_paths]
    to the route resolver, [LogReader] to the log reader, and [writable]
    tells for which keys the store accepts a write. *)
Class Collaborators : Type := {
  CarParams : Type;
  RouteT : Type;
  new_message : CarParams;
  to_bytes : CarParams → bytes;
  Route : string → Result RouteT;
  qlog_paths : RouteT → Result (list string);
  LogReader : string → Result (list (LogMessage CarParams));
  writable : string → bool
}.

(** The keys of the loop at the end of the script. *)
Definition param_keys : list string :=
  ["CarParams"; "CarParamsCache"; "CarParamsPersistent"].

(** The three writes of one value, in the order of the loop. *)
Definition three_puts (b : bytes) : list event :=
  [EvPut "CarParams" b; EvPut "CarParamsCache" b; EvPut "CarParamsPersistent" b].

(** ** The script *)

Section Seeder.
Context `{C : Collaborators}.

(** [as_builder()]: a mutable copy with the same content. *)
Definition as_builder (cp : CarParams) : CarParams := cp.

(** [LogReader(path)], consumed to the end by the list comprehension. *)
Definition read_log (path : string) : M (list (LogMessage CarParams)) :=
  emit (EvLogRead path) ≫= λ _, call (LogReader path).

(** Modelled from the spec: [Params().put(key, value)] of common/params,
    which is not part of the sources at hand.  A write overwrites the
    value under the key, or fails with a store write error when the store
    cannot be written. *)
Definition put (key : string) (value : bytes) : M unit :=
  λ w, if writable key
       then (Ok tt, mkWorld (<[key := value]> (store w))
                            (trace w ++ [EvPut key value]))
       else (Raise StoreWriteError, w).

(** The choice of the record, lines 10 to 15. *)
Definition choose_record (argv : list string) : M CarParams :=
  if bool_decide (1 < length argv) then
    arg ← index argv 1;
    r ← call (Route arg);
    paths ← call (qlog_paths r);
    p0 ← index paths 0;
    msgs ← read_log p0;
    let cps := List.filter (λ m, bool_decide (which m = "carParams")) msgs in
    m0 ← index cps 0;
    cp ← call (carParams m0);
    mret (as_builder cp)
  else
    load_global "car" ≫= λ _, mret new_message.

(** The body of the script. *)
Definition main (argv : list string) : M unit :=
  CP ← choose_record argv;
  let cp_bytes := to_bytes CP in
  for_each param_keys (λ p, put p cp_bytes).

(** The world a run leaves behind. *)
Definition exec (argv : list string) (w : World) : World := (main argv w).2.

(** The outcome of a run. *)
Definition outcome (argv : list string) (w : World) : Result unit :=
  (main argv w).1.

(** The events of a run from the initial world. *)
Definition events (argv : list string) : list event :=
  trace (exec argv initial_world).

(** The reading of the side-effect summary that counts three writes on
    the three keys for every run, and one log read exactly when an
    argument is given. *)
Definition three_writes_always (argv : list string) : Prop :=
  length (puts (events argv)) = 3 ∧
  (∀ e k, e ∈ events argv → put_key e = Some k → k ∈ param_keys) ∧
  length (reads (events argv)) = (if bool_decide (1 < length argv) then 1 else 0).

End Seeder.

(** ** Replaying a trace on a store *)

(** The effect of one event on the store: a write overwrites its key, a
    log read leaves the store alone. *)
Definition apply_event (s : gmap string bytes) (e : event) : gmap string bytes :=
  match e with
  | EvPut k v => <[k := v]> s
  | EvLogRead _ => s
  end.

Definition replay (t : list event) (s : gmap string bytes) : gmap string bytes :=
  foldl apply_event s t.

(** What one event does to the value under key [k]. *)
Definition step_at (k : string) (o : option bytes) (e : event) : option bytes :=
  match e with
  | EvPut k' v => if decide (k' = k) then Some v else o
  | EvLogRead _ => o
  end.

(** A computation is framed when its outcome and its events do not depend
    on the world it starts from, and its effect on the store is the replay
    of its events. *)
Definition framed {A : Type} (m : M A) : Prop :=
  ∀ w, m w = ((m initial_world).1,
              mkWorld (replay (trace (m initial_world).2) (store w))
                      (trace w ++ trace (m initial_world).2)).

(** ** A sample installation *)

(** Concrete collaborators to run the script on: parameter records that
    hold a mass, encoded little-endian on four bytes; a resolver that
    knows every route but one and gives each two segments; a log reader
    with one segment that holds two parameter records and one that holds
    none; a store that accepts every write. *)
Module Sample.

Record Params : Type := { mass : N }.

Definition byte_at (n : N) (i : N) : Byte.byte :=
  default Byte.x00 (Byte.of_N ((n / 256 ^ i) mod 256)%N).

Definition encode (cp : Params) : bytes :=
  [byte_at (mass cp) 0; byte_at (mass cp) 1;
   byte_at (mass cp) 2; byte_at (mass cp) 3].

Definition resolve (name : string) : Result string :=
  if String.eqb name "no-such-route" then Raise ResolutionError else Ok name.

Definition segments (r : string) : Result (list string) :=
  Ok [r +:+ "--0/qlog.bz2"; r +:+ "--1/qlog.bz2"].

Definition read (path : string) : Result (list (LogMessage Params)) :=
  if String.eqb path "route-2023-01-01--00-00-00--0/qlog.bz2" then
    Ok [MsgOther "initData"; MsgCarParams {| mass := 1500 |};
        MsgOther "carState"; MsgCarParams {| mass := 1600 |}]
  else if String.eqb path "route-2023-01-02--00-00-00--0/qlog.bz2" then
    Ok [MsgOther "initData"; MsgOther "carState"]
  else Raise LogReadError.

Definition collaborators : Collaborators := {|
  CarParams := Params;
  RouteT := string;
  new_message := {| mass := 0 |};
  to_bytes := encode;
  Route := resolve;
  qlog_paths := segments;
  LogReader := read;
  writable := λ _, true
|}.

Definition prog : string := "set_car_params.py".
Definition route_with_params : string := "route-2023-01-01--00-00-00".
Definition route_without_params : string := "route-2023-01-02--00-00-00".

(** The invocation with a route whose first segment holds parameter
    records, and the one with a route whose first segment holds none. *)
Definition argv_with_params : list string := [prog; route_with_params].
Definition argv_without_params : list string := [prog; route_without_params].

End Sample.

(** ** Store refusals *)

(** The keys of [l] up to the first one the store refuses. *)
Fixpoint accepted_keys (ok : string → bool) (l : list string) : list string :=
  match l with
  | [] => []
  | k :: l' => if ok k then k :: accepted_keys ok l' else []
  end.

(** The writes of one value under the keys of [l], in order. *)
Definition key_puts (b : bytes) (l : list string) : list event :=
  map (λ k, EvPut k b) l.

(** ** A faulty installation *)

(** Collaborators that fail in places: a route without segments, a
    segment that cannot be read, and a store that accepts the key
    ["CarParams"] only.  Records and encoding are those of the sample
    installation. *)
Module Faulty.

Definition segments (r : string) : Result (list string) :=
  if String.eqb r "route-without-segments" then Ok []
  else if String.eqb r "route-unlisted" then Raise ResolutionError
  else Ok [r +:+ "--0/qlog.bz2"].

Definition read (path : string) : Result (list (LogMessage Sample.Params)) :=
  if String.eqb path "route-unreadable--0/qlog.bz2" then Raise LogReadError
  else Ok [MsgOther "initData"; MsgCarParams {| Sample.mass := 1500 |}].

Definition collaborators : Collaborators := {|
  CarParams := Sample.Params;
  RouteT := string;
  new_message := {| Sample.mass := 0 |};
  to_bytes := Sample.encode;
  Route := Sample.resolve;
  qlog_paths := segments;
  LogReader := read;
  writable := λ k, String.eqb k "CarParams"
|}.

End Faulty.

(** ** The monad's equations *)

Lemma bind_ok {A B : Type} (m : M A) (f : A → M B) (a : A) (w w' : World) :
  m w = (Ok a, w') → (m ≫= f) w = f a w'.
Proof. intros H. unfold mbind, M_bind. by rewrite H. Qed.

Lemma bind_raise {A B : Type} (m : M A) (f : A → M B) (e : exn) (w w' : World) :
  m w = (Raise e, w') → (m ≫= f) w = (Raise e, w').
Proof. intros H. unfold mbind, M_bind. by rewrite H. Qed.

Lemma bind_call_ok {A B : Type} (a : A) (f : A → M B) (w : World) :
  (call (Ok a) ≫= f) w = f a w.
Proof. reflexivity. Qed.

Lemma bind_index_some {A B : Type} (l : list A) (i : nat) (x : A)
    (f : A → M B) (w : World) :
  l !! i = Some x → (index l i ≫= f) w = f x w.
Proof. intros H. apply bind_ok. unfold index. by rewrite H. Qed.

Lemma world_eta (w : World) : mkWorld (store w) (trace w ++ []) = w.
Proof. destruct w as [s t]. simpl. by rewrite app_nil_r. Qed.

(** ** Replay *)

Lemma replay_app t1 t2 s : replay (t1 ++ t2) s = replay t2 (replay t1 s).
Proof. unfold replay. apply foldl_app. Qed.

Lemma apply_event_lookup s e k :
  apply_event s e !! k = step_at k (s !! k) e.
Proof.
  destruct e as [p | k' v]; simpl; [done |].
  rewrite lookup_insert. repeat case_decide; congruence.
Qed.

Lemma replay_lookup t : ∀ s k, replay t s !! k = foldl (step_at k) (s !! k) t.
Proof.
  induction t as [| e t IH]; intros s k; simpl; [done |].
  unfold replay in *. simpl. by rewrite IH, apply_event_lookup.
Qed.

(** Along a trace a key either keeps its value or ends with a value that
    the trace alone determines. *)
Lemma step_at_settles k t :
  (∀ o, foldl (step_at k) o t = o) ∨ (∃ v, ∀ o, foldl (step_at k) o t = Some v).
Proof.
  induction t as [| e t IH] using rev_ind.
  - by left.
  - destruct e as [p | k' v].
    + destruct IH as [IH | [v IH]]; [left | right; exists v];
        intros o; by rewrite foldl_app, IH.
    + destruct (decide (k' = k)) as [-> | Hne].
      * right. exists v. intros o. rewrite foldl_app. simpl.
        by rewrite decide_True.
      * destruct IH as [IH | [v' IH]]; [left | right; exists v'];
          intros o; rewrite foldl_app; simpl; by rewrite decide_False, IH.
Qed.

Lemma replay_twice t s : replay t (replay t s) = replay t s.
Proof.
  apply map_eq. intros k. rewrite !replay_lookup.
  destruct (step_at_settles k t) as [H | [v H]]; by rewrite !H.
Qed.

(** A key that no write of the trace names keeps its value. *)
Lemma replay_other_key t s k :
  (∀ e k', e ∈ t → put_key e = Some k' → k' ≠ k) →
  replay t s !! k = s !! k.
Proof.
  revert s. induction t as [| e t IH]; intros s Ht; [done |].
  unfold replay in *. simpl. rewrite IH.
  - rewrite apply_event_lookup. destruct e as [p | k' v]; simpl; [done |].
    rewrite decide_False; [done |]. apply (Ht (EvPut k' v)); [left | done].
  - intros e' k' He'. apply Ht. by right.
Qed.

Lemma puts_app t1 t2 : puts (t1 ++ t2) = puts t1 ++ puts t2.
Proof. unfold puts. apply List.filter_app. Qed.

Lemma reads_app t1 t2 : reads (t1 ++ t2) = reads t1 ++ reads t2.
Proof. unfold reads. apply List.filter_app. Qed.

(** ** Framing of the monad's operations *)

Lemma framed_call {A : Type} (r : Result A) : framed (call r).
Proof. intros w. unfold call. simpl. by rewrite world_eta. Qed.

Lemma framed_ret {A : Type} (a : A) : framed (mret a : M A).
Proof. apply (framed_call (Ok a)). Qed.

Lemma framed_raise {A : Type} (e : exn) : framed (raise e : M A).
Proof. apply (framed_call (Raise e)). Qed.

Lemma framed_emit_read (path : string) : framed (emit (EvLogRead path)).
Proof. intros w. reflexivity. Qed.

Lemma framed_bind {A B : Type} (m : M A) (f : A → M B) :
  framed m → (∀ a, framed (f a)) → framed (m ≫= f).
Proof.
  intros Hm Hf w. unfold mbind, M_bind.
  rewrite (Hm w).
  destruct (m initial_world) as [[a | e] w1] eqn:E1; simpl; [| done].
  rewrite (Hf a (mkWorld _ _)). rewrite (Hf a w1). simpl.
  rewrite (Hm initial_world) in E1. simpl in E1.
  injection E1 as E1. subst w1. simpl.
  by rewrite replay_app, app_assoc.
Qed.

Lemma framed_index {A : Type} (l : list A) (i : nat) : framed (index l i).
Proof.
  unfold index. destruct (l !! i); [apply framed_ret | apply framed_raise].
Qed.

Lemma framed_for_each {A : Type} (l : list A) (body : A → M unit) :
  (∀ x, framed (body x)) → framed (for_each l body).
Proof.
  intros Hb. induction l as [| x l IH]; simpl.
  - apply framed_ret.
  - apply framed_bind; [apply Hb | intros _; apply IH].
Qed.

Lemma framed_load_global (name : string) : framed (load_global name).
Proof.
  unfold load_global. case_bool_decide; [apply framed_ret | apply framed_raise].
Qed.

(** ** Lists *)

Lemma filter_skip {A : Type} (f : A → bool) (pre : list A) (x : A) (post : list A) :
  Forall (λ y, f y = false) pre → f x = true →
  List.filter f (pre ++ x :: post) = x :: List.filter f post.
Proof.
  intros Hpre Hx. induction Hpre as [| y pre Hy _ IH]; simpl.
  - by rewrite Hx.
  - by rewrite Hy.
Qed.

Lemma filter_none {A : Type} (f : A → bool) (l : list A) :
  Forall (λ y, f y = false) l → List.filter f l = [].
Proof.
  intros H. induction H as [| y l Hy _ IH]; simpl; [done |]. by rewrite Hy.
Qed.

Lemma elem_of_param_keys (k : string) :
  k ∈ param_keys ↔ k = "CarParams" ∨ k = "CarParamsCache" ∨ k = "CarParamsPersistent".
Proof.
  unfold param_keys. rewrite !elem_of_cons, elem_of_nil. tauto.
Qed.

(** Closes a goal about the shape of a record choice, given the log reads
    it made. *)
Ltac exists_shape rd :=
  eexists _, rd; rewrite ?world_eta;
  split; [reflexivity |];
  split; [first [by left | right; by eexists] |];
  split; [intros; simpl in *; first [done | lia] |];
  let H := fresh in
  intros ? H; first [discriminate H | split; [done | by eexists]].

(** ** Runs of the seeder *)

Section SeederFacts.
Context `{C : Collaborators}.

Lemma framed_put (k : string) (v : bytes) : framed (put k v).
Proof.
  intros w. unfold put. destruct (writable k); simpl; [done |].
  by rewrite world_eta.
Qed.

Lemma framed_read_log (path : string) : framed (read_log path).
Proof.
  apply framed_bind; [apply framed_emit_read | intros _; apply framed_call].
Qed.

Lemma framed_choose_record (argv : list string) : framed (choose_record argv).
Proof.
  unfold choose_record. case_bool_decide.
  - repeat (apply framed_bind;
            [first [apply framed_index | apply framed_call | apply framed_read_log]
            | intros ?]).
    apply framed_ret.
  - apply framed_bind; [apply framed_load_global | intros _; apply framed_ret].
Qed.

Lemma framed_main (argv : list string) : framed (main argv).
Proof.
  apply framed_bind; [apply framed_choose_record |].
  intros cp. apply framed_for_each. intros k. apply framed_put.
Qed.

Lemma exec_store argv w : store (exec argv w) = replay (events argv) (store w).
Proof. unfold events, exec. by rewrite (framed_main argv w). Qed.

Lemma exec_trace argv w : trace (exec argv w) = trace w ++ events argv.
Proof. unfold events, exec. by rewrite (framed_main argv w). Qed.

Lemma outcome_initial argv w : outcome argv w = outcome argv initial_world.
Proof. unfold outcome. by rewrite (framed_main argv w). Qed.

(** *** The branch without an argument *)

Lemma choose_record_no_args (argv : list string) (w : World) :
  (length argv ≤ 1)%nat → choose_record argv w = (Raise (NameError "car"), w).
Proof.
  intros Hlen. unfold choose_record.
  rewrite bool_decide_eq_false_2 by lia. reflexivity.
Qed.

Lemma main_no_args (argv : list string) (w : World) :
  (length argv ≤ 1)%nat → main argv w = (Raise (NameError "car"), w).
Proof.
  intros Hlen. unfold main, mbind, M_bind.
  by rewrite choose_record_no_args.
Qed.

(** *** The branch with an argument *)

Lemma bind_read_log {B : Type} (path : string)
    (f : list (LogMessage CarParams) → M B) (w : World) :
  (read_log path ≫= f) w =
  (call (LogReader path) ≫= f) (mkWorld (store w) (trace w ++ [EvLogRead path])).
Proof. reflexivity. Qed.

Lemma choose_record_resolved argv arg r p ps msgs w :
  argv !! 1 = Some arg →
  Route arg = Ok r →
  qlog_paths r = Ok (p :: ps) →
  LogReader p = Ok msgs →
  choose_record argv w =
    (let cps := List.filter (λ m, bool_decide (which m = "carParams")) msgs in
     m0 ← index cps 0; cp ← call (carParams m0); mret (as_builder cp))
      (mkWorld (store w) (trace w ++ [EvLogRead p])).
Proof.
  intros Harg Hr Hq Hl. unfold choose_record.
  assert (1 < length argv) as Hlen by (by apply lookup_lt_Some in Harg).
  rewrite bool_decide_eq_true_2 by done.
  rewrite (bind_index_some _ _ _ _ _ Harg).
  rewrite Hr, bind_call_ok, Hq, bind_call_ok.
  rewrite (bind_index_some (p :: ps) 0 p) by done.
  rewrite bind_read_log, Hl. reflexivity.
Qed.

(** The shape of a record choice: at most one log read, nothing else, and
    the store is left alone. *)
Lemma choose_record_shape (argv : list string) (w : World) :
  ∃ r rd, choose_record argv w = (r, mkWorld (store w) (trace w ++ rd)) ∧
    (rd = [] ∨ ∃ p, rd = [EvLogRead p]) ∧
    ((length argv ≤ 1)%nat → rd = []) ∧
    (∀ cp, r = Ok cp → 1 < length argv ∧ ∃ p, rd = [EvLogRead p]).
Proof.
  unfold choose_record. case_bool_decide as Hlen.
  - destruct (argv !! 1) as [arg |] eqn:Harg;
      [| apply lookup_ge_None in Harg; lia].
    rewrite (bind_index_some _ _ _ _ _ Harg).
    destruct (Route arg) as [r | e]; [| exists_shape (@nil event)].
    rewrite bind_call_ok.
    destruct (qlog_paths r) as [[| p ps] | e]; [exists_shape (@nil event) | |
      exists_shape (@nil event)].
    rewrite bind_call_ok, (bind_index_some (p :: ps) 0 p) by done.
    rewrite bind_read_log.
    destruct (LogReader p) as [msgs | e]; [| exists_shape [EvLogRead p]].
    rewrite bind_call_ok.
    destruct (List.filter _ msgs) as [| m0 cps]; [exists_shape [EvLogRead p] |].
    rewrite (bind_index_some (m0 :: cps) 0 m0) by done.
    destruct (carParams m0) as [cp | e]; exists_shape [EvLogRead p].
  - exists (Raise (NameError "car")), []. rewrite world_eta.
    split; [reflexivity |]. split; [by left |]. split; [done |].
    intros cp Hcp. discriminate Hcp.
Qed.

(** *** The three writes *)

Lemma write_all_ok b w :
  (∀ k, k ∈ param_keys → writable k = true) →
  for_each param_keys (λ p, put p b) w =
    (Ok tt, mkWorld (replay (three_puts b) (store w)) (trace w ++ three_puts b)).
Proof.
  intros Hw. unfold param_keys in *. simpl.
  unfold mbind, M_bind, put.
  rewrite !Hw by (apply elem_of_param_keys; tauto). simpl.
  by rewrite <- !app_assoc.
Qed.

(** The shape of the writes: a prefix of the three, all three on
    success. *)
Lemma write_all_shape b w :
  ∃ r wr, for_each param_keys (λ p, put p b) w =
            (r, mkWorld (replay wr (store w)) (trace w ++ wr)) ∧
    wr `prefix_of` three_puts b ∧
    (r = Ok tt → wr = three_puts b ∧ ∀ k, k ∈ param_keys → writable k = true).
Proof.
  unfold param_keys. simpl. unfold mbind, M_bind, put.
  destruct (writable "CarParams") eqn:E1; simpl.
  2: { exists (Raise StoreWriteError), []. simpl. rewrite world_eta.
       split; [done |]. split; [apply prefix_nil | done]. }
  destruct (writable "CarParamsCache") eqn:E2; simpl.
  2: { exists (Raise StoreWriteError), [EvPut "CarParams" b].
       split; [done |]. split; [by eexists | done]. }
  destruct (writable "CarParamsPersistent") eqn:E3; simpl.
  2: { exists (Raise StoreWriteError), [EvPut "CarParams" b; EvPut "CarParamsCache" b].
       rewrite <- !app_assoc.
       split; [done |]. split; [by eexists | done]. }
  exists (Ok tt), (three_puts b). rewrite <- !app_assoc.
  split; [done |]. split; [done |]. intros _. split; [done |].
  intros k Hk. apply elem_of_param_keys in Hk.
  destruct Hk as [-> | [-> | ->]]; done.
Qed.

(** *** The whole run *)

(** The shape of a run: at most one log read, then a prefix of the three
    writes of the chosen record's encoding. *)
Lemma main_shape (argv : list string) (w : World) :
  ∃ r rd wr,
    main argv w = (r, mkWorld (replay wr (store w)) (trace w ++ rd ++ wr)) ∧
    (rd = [] ∨ ∃ p, rd = [EvLogRead p]) ∧
    ((length argv ≤ 1)%nat → rd = []) ∧
    (∃ b, wr `prefix_of` three_puts b) ∧
    (r = Ok tt → ∃ cp p, (choose_record argv w).1 = Ok cp ∧
                   wr = three_puts (to_bytes cp) ∧ rd = [EvLogRead p] ∧
                   1 < length argv ∧
                   ∀ k, k ∈ param_keys → writable k = true).
Proof.
  destruct (choose_record_shape argv w) as (r & rd & Hc & Hrd & Hno & Hok).
  unfold main. destruct r as [cp | e].
  - rewrite (bind_ok _ _ _ _ _ Hc).
    destruct (write_all_shape (to_bytes cp) (mkWorld (store w) (trace w ++ rd)))
      as (r & wr & Hw & Hpre & Hall).
    exists r, rd, wr. cbv beta zeta. rewrite Hw. simpl. rewrite <- app_assoc.
    split; [done |]. split; [done |]. split; [done |].
    split; [by exists (to_bytes cp) |].
    intros Hr. destruct (Hall Hr) as [-> Hwr].
    destruct (Hok cp eq_refl) as [Hlen [p ->]].
    exists cp, p. rewrite Hc. done.
  - rewrite (bind_raise _ _ _ _ _ Hc).
    exists (Raise e), rd, []. rewrite app_nil_r.
    split; [done |]. split; [done |]. split; [done |].
    split; [exists []; apply prefix_nil | done].
Qed.

End SeederFacts.

(** ** Properties of the script *)

Section Properties.
Context `{C : Collaborators}.

(** C1: at the invocation with zero arguments, [set_car_params.py] alone,
    the run from the initial world ends with a name error on [car] and the
    store holds nothing under ["CarParams"], ["CarParamsCache"] and
    ["CarParamsPersistent"], so not the encoding of the default record. *)
Theorem no_args_run_leaves_keys_unset :
  main ["set_car_params.py"] initial_world
    = (Raise (NameError "car"), initial_world) ∧
  store (exec ["set_car_params.py"] initial_world) !! "CarParams" = None ∧
  store (exec ["set_car_params.py"] initial_world) !! "CarParamsCache" = None ∧
  store (exec ["set_car_params.py"] initial_world) !! "CarParamsPersistent" = None.
Proof.
  unfold exec. rewrite main_no_args by (simpl; lia). simpl.
  repeat split; apply lookup_empty.
Qed.

(** C2: when the first argument resolves to a route whose first segment
    reads as records [pre ++ MsgCarParams cp :: post] with no record of
    [pre] tagged ["carParams"], and the store accepts the three writes,
    the run succeeds and each of the three keys holds the encoding of
    [cp], the payload of the first matching record. *)
Theorem first_carParams_record_is_stored
    (argv : list string) (arg : string) (r : RouteT) (p : string)
    (ps : list string) (pre post : list (LogMessage CarParams))
    (cp : CarParams) (w : World) :
  argv !! 1 = Some arg →
  Route arg = Ok r →
  qlog_paths r = Ok (p :: ps) →
  LogReader p = Ok (pre ++ MsgCarParams cp :: post) →
  Forall (λ m, which m ≠ "carParams") pre →
  (∀ k, k ∈ param_keys → writable k = true) →
  outcome argv w = Ok tt ∧
  ∀ k, k ∈ param_keys → store (exec argv w) !! k = Some (to_bytes cp).
Proof.
  intros Harg Hr Hq Hl Hpre Hw.
  assert (main argv w =
          (Ok tt, mkWorld (replay (three_puts (to_bytes cp)) (store w))
                          ((trace w ++ [EvLogRead p]) ++ three_puts (to_bytes cp))))
    as Hmain.
  { unfold main.
    erewrite bind_ok; [apply (write_all_ok _ (mkWorld _ _) Hw) |].
    rewrite (choose_record_resolved _ _ _ _ _ _ _ Harg Hr Hq Hl).
    cbv zeta. rewrite filter_skip.
    - reflexivity.
    - eapply Forall_impl; [exact Hpre |]. intros m Hm.
      by apply bool_decide_eq_false_2.
    - reflexivity. }
  unfold outcome, exec. rewrite Hmain. simpl. split; [done |].
  intros k Hk. apply elem_of_param_keys in Hk.
  destruct Hk as [-> | [-> | ->]]; by simplify_map_eq.
Qed.

(** C3: when the first argument resolves to a route whose first segment
    reads as records none of which is tagged ["carParams"], the run ends
    with an index error, the store is unchanged and the trace has no new
    write. *)
Theorem no_carParams_record_fails_without_writes
    (argv : list string) (arg : string) (r : RouteT) (p : string)
    (ps : list string) (msgs : list (LogMessage CarParams)) (w : World) :
  argv !! 1 = Some arg →
  Route arg = Ok r →
  qlog_paths r = Ok (p :: ps) →
  LogReader p = Ok msgs →
  Forall (λ m, which m ≠ "carParams") msgs →
  outcome argv w = Raise IndexError ∧
  store (exec argv w) = store w ∧
  puts (trace (exec argv w)) = puts (trace w).
Proof.
  intros Harg Hr Hq Hl Hnone.
  assert (main argv w =
          (Raise IndexError, mkWorld (store w) (trace w ++ [EvLogRead p])))
    as Hmain.
  { unfold main. erewrite bind_raise; [reflexivity |].
    rewrite (choose_record_resolved _ _ _ _ _ _ _ Harg Hr Hq Hl).
    cbv zeta. rewrite filter_none; [reflexivity |].
    eapply Forall_impl; [exact Hnone |]. intros m Hm.
    by apply bool_decide_eq_false_2. }
  unfold outcome, exec. rewrite Hmain. simpl.
  split; [done |]. split; [done |].
  rewrite puts_app. simpl. by rewrite app_nil_r.
Qed.

(** C4: after a successful run, whatever the arguments, the three keys
    hold the same value, the encoding of the one record the run chose. *)
Theorem successful_run_stores_one_record (argv : list string) (w : World) :
  outcome argv w = Ok tt →
  ∃ cp, (choose_record argv w).1 = Ok cp ∧
    store (exec argv w) !! "CarParams" = Some (to_bytes cp) ∧
    store (exec argv w) !! "CarParamsCache" = store (exec argv w) !! "CarParams" ∧
    store (exec argv w) !! "CarParamsPersistent" = store (exec argv w) !! "CarParams".
Proof.
  unfold outcome, exec.
  destruct (main_shape argv w) as (r & rd & wr & Hmain & _ & _ & _ & Hok).
  rewrite Hmain. simpl. intros ->.
  destruct (Hok eq_refl) as (cp & p & Hcp & -> & _).
  exists cp. split; [done |]. unfold replay. simpl. by simplify_map_eq.
Qed.

(** C5: a second run with the same arguments ends as the first and leaves
    the store as the first run left it; the store after a run is the store
    before it with the run's writes replayed as overwrites of their keys,
    writes that do not depend on the store's content. *)
Theorem rerun_is_idempotent (argv : list string) (w : World) :
  outcome argv (exec argv w) = outcome argv w ∧
  store (exec argv (exec argv w)) = store (exec argv w) ∧
  store (exec argv w) = replay (events argv) (store w).
Proof.
  split; [by rewrite (outcome_initial argv w), outcome_initial |].
  split; [| apply exec_store].
  rewrite !exec_store. apply replay_twice.
Qed.

(** C6: on a successful run the writes added to the trace are those of
    ["CarParams"], ["CarParamsCache"] and ["CarParamsPersistent"], in
    this order and with one value, and the store is the earlier one with
    the three keys overwritten. *)
Theorem writes_follow_key_order (argv : list string) (w : World) :
  outcome argv w = Ok tt →
  ∃ b, puts (trace (exec argv w)) =
         puts (trace w) ++ [EvPut "CarParams" b; EvPut "CarParamsCache" b;
                            EvPut "CarParamsPersistent" b] ∧
       store (exec argv w) =
         <["CarParamsPersistent" := b]>
           (<["CarParamsCache" := b]> (<["CarParams" := b]> (store w))).
Proof.
  unfold outcome, exec.
  destruct (main_shape argv w) as (r & rd & wr & Hmain & _ & _ & _ & Hok).
  rewrite Hmain. simpl. intros ->.
  destruct (Hok eq_refl) as (cp & p & _ & -> & -> & _).
  exists (to_bytes cp). split; [| done].
  rewrite !puts_app. reflexivity.
Qed.

(** C7: two zero-argument runs in a row from the initial world both end
    with a name error on [car] and the store is still empty after each:
    no encoding is stored that could be compared. *)
Theorem repeated_no_args_runs_store_nothing :
  let w1 := exec ["set_car_params.py"] initial_world in
  let w2 := exec ["set_car_params.py"] w1 in
  outcome ["set_car_params.py"] initial_world = Raise (NameError "car") ∧
  outcome ["set_car_params.py"] w1 = Raise (NameError "car") ∧
  store w1 = ∅ ∧ store w2 = ∅.
Proof.
  unfold outcome, exec. by rewrite !main_no_args by (simpl; lia).
Qed.

(** C8, amended: the events a run adds to the trace are those of the run
    from the initial world.  Every run makes at most three store writes,
    writes no key other than the three and leaves every other key as it
    was, and makes at most one log read, none when no argument is given;
    a successful run makes exactly three writes, and exactly one log read
    when an argument is given. *)
Theorem run_effects_are_bounded (argv : list string) (w : World) :
  trace (exec argv w) = trace w ++ events argv ∧
  (length (puts (events argv)) ≤ 3)%nat ∧
  (∀ e k, e ∈ events argv → put_key e = Some k → k ∈ param_keys) ∧
  (∀ k, k ∉ param_keys → store (exec argv w) !! k = store w !! k) ∧
  (length (reads (events argv)) ≤ 1)%nat ∧
  ((length argv ≤ 1)%nat → reads (events argv) = []) ∧
  (outcome argv w = Ok tt →
     length (puts (events argv)) = 3 ∧
     (1 < length argv → length (reads (events argv)) = 1)).
Proof.
  assert (∀ e k, e ∈ events argv → put_key e = Some k → k ∈ param_keys) as Hkeys.
  { unfold events, exec.
    destruct (main_shape argv initial_world)
      as (r & rd & wr & Hmain & Hrd & _ & [b Hpre] & _).
    rewrite Hmain. simpl. intros e k He Hk.
    apply elem_of_app in He as [He | He].
    - destruct Hrd as [-> | [p ->]]; [by apply elem_of_nil in He |].
      apply list_elem_of_singleton in He as ->. discriminate Hk.
    - destruct Hpre as [rest Hpre].
      assert (e ∈ three_puts b) as Hin
        by (rewrite Hpre; apply elem_of_app; by left).
      unfold three_puts in Hin. rewrite !elem_of_cons, elem_of_nil in Hin.
      apply elem_of_param_keys.
      destruct Hin as [-> | [-> | [-> | []]]]; simpl in Hk;
        injection Hk as <-; tauto. }
  rewrite (outcome_initial argv w). unfold outcome.
  split; [apply exec_trace |].
  split; [| split; [exact Hkeys | split]].
  - unfold events, exec.
    destruct (main_shape argv initial_world)
      as (r & rd & wr & Hmain & Hrd & _ & [b Hpre] & _).
    rewrite Hmain. simpl. rewrite puts_app.
    apply prefix_length in Hpre. simpl in Hpre.
    assert (length (puts wr) ≤ length wr)%nat as Hle
      by (unfold puts; apply List.filter_length_le).
    destruct Hrd as [-> | [p ->]]; simpl; lia.
  - intros k Hk. rewrite exec_store. apply replay_other_key.
    intros e k' He Hk' ->. apply Hk. by apply (Hkeys e).
  - unfold events, exec.
    destruct (main_shape argv initial_world)
      as (r & rd & wr & Hmain & Hrd & Hno & [b Hpre] & Hok).
    rewrite Hmain. simpl. rewrite reads_app.
    assert (reads wr = []) as ->.
    { destruct Hpre as [rest Hpre].
      assert (reads (wr ++ rest) = []) as Hr by (by rewrite <- Hpre).
      rewrite reads_app in Hr. by apply app_eq_nil in Hr as [? _]. }
    rewrite app_nil_r.
    split; [destruct Hrd as [-> | [p ->]]; simpl; lia |].
    split; [intros Hlen; by rewrite (Hno Hlen) |].
    intros ->. destruct (Hok eq_refl) as (cp & p & _ & -> & -> & _).
    split; [by rewrite puts_app | done].
Qed.

(** C9: with no argument beyond the program name the record choice
    raises a name error on [car]; the run ends with it and leaves the
    world, store and trace, as it found it: nothing is serialized or
    written. *)
Theorem no_args_run_aborts_with_name_error (argv : list string) (w : World) :
  (length argv ≤ 1)%nat →
  choose_record argv w = (Raise (NameError "car"), w) ∧
  outcome argv w = Raise (NameError "car") ∧
  exec argv w = w.
Proof.
  intros Hlen. unfold outcome, exec.
  by rewrite main_no_args, choose_record_no_args.
Qed.

(** C10: arguments after the first have no influence: a run with further
    arguments is the run with the program name and the first argument
    alone, in outcome and in the world it leaves. *)
Theorem trailing_arguments_are_ignored
    (prog arg : string) (rest : list string) (w : World) :
  main (prog :: arg :: rest) w = main [prog; arg] w.
Proof.
  unfold main, choose_record.
  rewrite !bool_decide_eq_true_2 by (simpl; lia).
  reflexivity.
Qed.

End Properties.

(** ** Runs on the sample installation *)

(** The run on the route with mass 1500 in its first parameter record
    stores the encoding of that record under the three keys. *)
Lemma first_carParams_record_is_stored_witness :
  outcome (C := Sample.collaborators) Sample.argv_with_params initial_world = Ok tt ∧
  store (exec (C := Sample.collaborators) Sample.argv_with_params initial_world)
    !! "CarParams" = Some (Sample.encode {| Sample.mass := 1500 |}) ∧
  store (exec (C := Sample.collaborators) Sample.argv_with_params initial_world)
    !! "CarParamsCache" = Some (Sample.encode {| Sample.mass := 1500 |}) ∧
  store (exec (C := Sample.collaborators) Sample.argv_with_params initial_world)
    !! "CarParamsPersistent" = Some (Sample.encode {| Sample.mass := 1500 |}).
Proof.
  destruct (first_carParams_record_is_stored (C := Sample.collaborators)
              Sample.argv_with_params Sample.route_with_params Sample.route_with_params
              "route-2023-01-01--00-00-00--0/qlog.bz2"
              ["route-2023-01-01--00-00-00--1/qlog.bz2"]
              [MsgOther "initData"]
              [MsgOther "carState"; MsgCarParams {| Sample.mass := 1600 |}]
              {| Sample.mass := 1500 |} initial_world) as [Ho Hs].
  - reflexivity.
  - reflexivity.
  - reflexivity.
  - reflexivity.
  - constructor; [discriminate | constructor].
  - intros k _. reflexivity.
  - split; [exact Ho |].
    repeat split; apply Hs; apply elem_of_param_keys; tauto.
Defined.

(** The run on the route without parameter records ends with an index
    error and writes nothing. *)
Lemma no_carParams_record_fails_without_writes_witness :
  outcome (C := Sample.collaborators) Sample.argv_without_params initial_world
    = Raise IndexError ∧
  store (exec (C := Sample.collaborators) Sample.argv_without_params initial_world)
    = store initial_world ∧
  puts (trace (exec (C := Sample.collaborators) Sample.argv_without_params initial_world))
    = puts (trace initial_world).
Proof.
  apply (no_carParams_record_fails_without_writes (C := Sample.collaborators)
           Sample.argv_without_params Sample.route_without_params
           Sample.route_without_params
           "route-2023-01-02--00-00-00--0/qlog.bz2"
           ["route-2023-01-02--00-00-00--1/qlog.bz2"]
           [MsgOther "initData"; MsgOther "carState"] initial_world).
  - reflexivity.
  - reflexivity.
  - reflexivity.
  - reflexivity.
  - repeat constructor; discriminate.
Defined.

(** The successful run on the route with parameter records leaves one
    record's encoding under the three keys. *)
Lemma successful_run_stores_one_record_witness :
  ∃ cp : Sample.Params,
    (choose_record (C := Sample.collaborators) Sample.argv_with_params initial_world).1
      = Ok cp ∧
    store (exec (C := Sample.collaborators) Sample.argv_with_params initial_world)
      !! "CarParams" = Some (Sample.encode cp) ∧
    store (exec (C := Sample.collaborators) Sample.argv_with_params initial_world)
      !! "CarParamsCache" =
    store (exec (C := Sample.collaborators) Sample.argv_with_params initial_world)
      !! "CarParams" ∧
    store (exec (C := Sample.collaborators) Sample.argv_with_params initial_world)
      !! "CarParamsPersistent" =
    store (exec (C := Sample.collaborators) Sample.argv_with_params initial_world)
      !! "CarParams".
Proof.
  apply (successful_run_stores_one_record (C := Sample.collaborators)
           Sample.argv_with_params initial_world).
  reflexivity.
Defined.

(** The successful run on the route with parameter records writes the
    three keys in order. *)
Lemma writes_follow_key_order_witness :
  ∃ b,
    puts (trace (exec (C := Sample.collaborators) Sample.argv_with_params initial_world))
      = puts (trace initial_world) ++
        [EvPut "CarParams" b; EvPut "CarParamsCache" b;
         EvPut "CarParamsPersistent" b] ∧
    store (exec (C := Sample.collaborators) Sample.argv_with_params initial_world)
      = <["CarParamsPersistent" := b]>
          (<["CarParamsCache" := b]> (<["CarParams" := b]> (store initial_world))).
Proof.
  apply (writes_follow_key_order (C := Sample.collaborators)
           Sample.argv_with_params initial_world).
  reflexivity.
Defined.

(** The run on the route without parameter records fails after one log
    read and before any write: the count of three writes for every run
    does not hold of it. *)
Lemma run_without_params_makes_no_write :
  outcome (C := Sample.collaborators) Sample.argv_without_params initial_world
    = Raise IndexError ∧
  events (C := Sample.collaborators) Sample.argv_without_params
    = [EvLogRead "route-2023-01-02--00-00-00--0/qlog.bz2"] ∧
  ¬ three_writes_always (C := Sample.collaborators) Sample.argv_without_params.
Proof.
  split; [reflexivity |]. split; [reflexivity |].
  intros [H _]. vm_compute in H. discriminate H.
Qed.

(** The successful run on the route with parameter records makes three
    writes and one log read. *)
Lemma run_effects_are_bounded_witness :
  length (puts (events (C := Sample.collaborators) Sample.argv_with_params)) = 3 ∧
  length (reads (events (C := Sample.collaborators) Sample.argv_with_params)) = 1.
Proof.
  destruct (run_effects_are_bounded (C := Sample.collaborators)
              Sample.argv_with_params initial_world)
    as (_ & _ & _ & _ & _ & _ & Hok).
  destruct (Hok eq_refl) as [Hputs Hreads].
  split; [exact Hputs | apply Hreads; simpl; lia].
Defined.

(** The run with the program name alone aborts with the name error and
    leaves the world as it was. *)
Lemma no_args_run_aborts_with_name_error_witness :
  choose_record (C := Sample.collaborators) [Sample.prog] initial_world
    = (Raise (NameError "car"), initial_world) ∧
  outcome (C := Sample.collaborators) [Sample.prog] initial_world
    = Raise (NameError "car") ∧
  exec (C := Sample.collaborators) [Sample.prog] initial_world = initial_world.
Proof.
  apply (no_args_run_aborts_with_name_error (C := Sample.collaborators)
           [Sample.prog] initial_world).
  simpl. lia.
Defined.

(** ** Failure paths of a run *)

Section FailurePaths.
Context `{C : Collaborators}.

Lemma key_puts_are_puts b l : puts (key_puts b l) = key_puts b l.
Proof. induction l as [| k l IH]; simpl; [done |]. unfold puts in *. simpl. by rewrite IH. Qed.

Lemma key_puts_no_reads b l : reads (key_puts b l) = [].
Proof. induction l as [| k l IH]; simpl; done. Qed.

(** The loop over a list of keys writes up to the first refusal. *)
Lemma write_keys (l : list string) (b : bytes) : ∀ w,
  for_each l (λ p, put p b) w =
    (if forallb writable l then Ok tt else Raise StoreWriteError,
     mkWorld (replay (key_puts b (accepted_keys writable l)) (store w))
             (trace w ++ key_puts b (accepted_keys writable l))).
Proof.
  induction l as [| k l IH]; intros w; simpl.
  - unfold mret, M_ret. by rewrite world_eta.
  - unfold mbind, M_bind. unfold put at 1.
    destruct (writable k) eqn:Ek; simpl.
    + rewrite IH. simpl. by rewrite <- app_assoc.
    + by rewrite world_eta.
Qed.

Lemma main_after_choice argv cp w w0 :
  choose_record argv w = (Ok cp, w0) →
  main argv w = for_each param_keys (λ p, put p (to_bytes cp)) w0.
Proof. intros H. unfold main. by rewrite (bind_ok _ _ _ _ _ H). Qed.

Lemma main_choice_fails argv e w w0 :
  choose_record argv w = (Raise e, w0) → main argv w = (Raise e, w0).
Proof. intros H. unfold main. by rewrite (bind_raise _ _ _ _ _ H). Qed.

(** A record choice only adds log reads to the trace. *)
Lemma choose_record_reads_only argv w :
  ∃ r rd, choose_record argv w = (r, mkWorld (store w) (trace w ++ rd)) ∧
          puts rd = [].
Proof.
  destruct (choose_record_shape argv w) as (r & rd & Hc & Hrd & _).
  exists r, rd. split; [done |]. by destruct Hrd as [-> | [p ->]].
Qed.

(** Once the first segment is known the choice reads it, whatever comes
    of the read. *)
Lemma choose_record_first_segment argv arg r p ps w :
  argv !! 1 = Some arg →
  Route arg = Ok r →
  qlog_paths r = Ok (p :: ps) →
  ∃ r', choose_record argv w = (r', mkWorld (store w) (trace w ++ [EvLogRead p])).
Proof.
  intros Harg Hr Hq.
  destruct (LogReader p) as [msgs | e] eqn:Hl.
  - rewrite (choose_record_resolved _ _ _ _ _ _ _ Harg Hr Hq Hl). cbv zeta.
    destruct (List.filter _ msgs) as [| m0 cps]; [by eexists |].
    rewrite (bind_index_some (m0 :: cps) 0 m0) by done.
    destruct (carParams m0) as [cp | e]; by eexists.
  - exists (Raise e). unfold choose_record.
    assert (1 < length argv) as Hlen by (by apply lookup_lt_Some in Harg).
    rewrite bool_decide_eq_true_2 by done.
    rewrite (bind_index_some _ _ _ _ _ Harg).
    rewrite Hr, bind_call_ok, Hq, bind_call_ok.
    rewrite (bind_index_some (p :: ps) 0 p) by done.
    rewrite bind_read_log, Hl. reflexivity.
Qed.

(** What a successful choice went through. *)
Lemma choose_record_ok_inv argv cp w w0 :
  choose_record argv w = (Ok cp, w0) →
  ∃ arg r p ps msgs m0 cps,
    argv !! 1 = Some arg ∧ Route arg = Ok r ∧ qlog_paths r = Ok (p :: ps) ∧
    LogReader p = Ok msgs ∧
    List.filter (λ m, bool_decide (which m = "carParams")) msgs = m0 :: cps ∧
    carParams m0 = Ok cp.
Proof.
  unfold choose_record. case_bool_decide as Hlen; [| discriminate].
  destruct (argv !! 1) as [arg |] eqn:Harg;
    [| apply lookup_ge_None in Harg; lia].
  rewrite (bind_index_some _ _ _ _ _ Harg).
  destruct (Route arg) as [r | e] eqn:Hr; [| discriminate].
  rewrite bind_call_ok.
  destruct (qlog_paths r) as [[| p ps] | e] eqn:Hq; [discriminate | | discriminate].
  rewrite bind_call_ok, (bind_index_some (p :: ps) 0 p) by done.
  rewrite bind_read_log.
  destruct (LogReader p) as [msgs | e] eqn:Hl; [| discriminate].
  rewrite bind_call_ok.
  destruct (List.filter _ msgs) as [| m0 cps] eqn:Hf; [discriminate |].
  rewrite (bind_index_some (m0 :: cps) 0 m0) by done.
  destruct (carParams m0) as [cp' | e] eqn:Hcp; [| discriminate].
  rewrite bind_call_ok. intros [= Hb _]. unfold as_builder in Hb. subst cp'.
  by exists arg, r, p, ps, msgs, m0, cps.
Qed.

End FailurePaths.

Section FailureFacts.
Context `{C : Collaborators}.

Lemma replay_no_puts t s : puts t = [] → replay t s = s.
Proof.
  revert s. induction t as [| e t IH]; intros s H; [done |].
  destruct e as [p | k v]; simpl in *; [| done].
  unfold replay in *. simpl. by apply IH.
Qed.

Lemma all_writable_iff :
  forallb writable param_keys = true ↔ ∀ k, k ∈ param_keys → writable k = true.
Proof.
  unfold param_keys. simpl. split.
  - intros H k Hk. apply elem_of_param_keys in Hk.
    destruct Hk as [-> | [-> | ->]];
      destruct (writable "CarParams"), (writable "CarParamsCache"),
        (writable "CarParamsPersistent"); done.
  - intros H. rewrite !H by (apply elem_of_param_keys; tauto). done.
Qed.

Lemma accepted_all (l : list string) :
  forallb writable l = true → accepted_keys writable l = l.
Proof.
  induction l as [| k l IH]; simpl; [done |].
  destruct (writable k); simpl; [| done]. intros H. by rewrite IH.
Qed.

(** The two ways a run from the initial world goes: the choice fails and
    only log reads were made, or a record is chosen and the loop writes
    up to the first refusal. *)
Lemma run_cases (argv : list string) :
  (∃ e rd, puts rd = [] ∧ outcome argv initial_world = Raise e ∧
           (choose_record argv initial_world).1 = Raise e ∧ events argv = rd) ∨
  (∃ cp rd, puts rd = [] ∧ reads rd = rd ∧
            (choose_record argv initial_world).1 = Ok cp ∧
            outcome argv initial_world =
              (if forallb writable param_keys then Ok tt
               else Raise StoreWriteError) ∧
            events argv =
              rd ++ key_puts (to_bytes cp) (accepted_keys writable param_keys)).
Proof.
  destruct (choose_record_shape argv initial_world)
    as (r & rd & Hc & Hrd & _).
  assert (puts rd = [] ∧ reads rd = rd) as [Hp Hr]
    by (by destruct Hrd as [-> | [p ->]]).
  unfold events, exec, outcome. destruct r as [cp | e].
  - right. exists cp, rd. rewrite (main_after_choice _ _ _ _ Hc), write_keys.
    rewrite Hc. done.
  - left. exists e, rd. rewrite (main_choice_fails _ _ _ _ Hc), Hc. done.
Qed.

End FailureFacts.

(** ** Further properties of the script *)

Section FurtherProperties.
Context `{C : Collaborators}.

(** X1: when the route resolver raises on the first argument, in the
    constructor or in the listing of segments, the run ends with that
    exception and the world is as before: no log read, no write. *)
Theorem resolver_failure_propagates
    (argv : list string) (arg : string) (e : exn) (w : World) :
  argv !! 1 = Some arg →
  (Route arg = Raise e ∨ ∃ r, Route arg = Ok r ∧ qlog_paths r = Raise e) →
  main argv w = (Raise e, w).
Proof.
  intros Harg H. apply main_choice_fails. unfold choose_record.
  assert (1 < length argv) as Hlen by (by apply lookup_lt_Some in Harg).
  rewrite bool_decide_eq_true_2 by done.
  rewrite (bind_index_some _ _ _ _ _ Harg).
  destruct H as [Hr | (r & Hr & Hq)]; rewrite Hr; [reflexivity |].
  rewrite bind_call_ok, Hq. reflexivity.
Qed.

(** X2: when the route resolves to an empty list of segments, taking its
    first element raises an index error; the run ends with it before any
    log read or write, the world is as before. *)
Theorem empty_segment_list_raises_index_error
    (argv : list string) (arg : string) (r : RouteT) (w : World) :
  argv !! 1 = Some arg →
  Route arg = Ok r →
  qlog_paths r = Ok [] →
  main argv w = (Raise IndexError, w).
Proof.
  intros Harg Hr Hq. apply main_choice_fails. unfold choose_record.
  assert (1 < length argv) as Hlen by (by apply lookup_lt_Some in Harg).
  rewrite bool_decide_eq_true_2 by done.
  rewrite (bind_index_some _ _ _ _ _ Harg).
  rewrite Hr, bind_call_ok, Hq, bind_call_ok. reflexivity.
Qed.

(** X3: when the log reader raises on the first segment, the run ends
    with that exception after the one log read; the store is as before
    and nothing is written. *)
Theorem log_read_failure_propagates
    (argv : list string) (arg : string) (r : RouteT) (p : string)
    (ps : list string) (e : exn) (w : World) :
  argv !! 1 = Some arg →
  Route arg = Ok r →
  qlog_paths r = Ok (p :: ps) →
  LogReader p = Raise e →
  main argv w = (Raise e, mkWorld (store w) (trace w ++ [EvLogRead p])).
Proof.
  intros Harg Hr Hq Hl. apply main_choice_fails. unfold choose_record.
  assert (1 < length argv) as Hlen by (by apply lookup_lt_Some in Harg).
  rewrite bool_decide_eq_true_2 by done.
  rewrite (bind_index_some _ _ _ _ _ Harg).
  rewrite Hr, bind_call_ok, Hq, bind_call_ok.
  rewrite (bind_index_some (p :: ps) 0 p) by done.
  rewrite bind_read_log, Hl. reflexivity.
Qed.

(** X4: once a record is chosen, the loop writes its encoding under the
    keys up to the first one the store refuses and stops there: the run
    succeeds when the store accepts the three keys and ends with a store
    write error otherwise, the keys before the refusal written and the
    later ones not. *)
Theorem writes_stop_at_first_refusal
    (argv : list string) (cp : CarParams) (w : World) :
  (choose_record argv w).1 = Ok cp →
  outcome argv w =
    (if forallb writable param_keys then Ok tt else Raise StoreWriteError) ∧
  puts (events argv) =
    key_puts (to_bytes cp) (accepted_keys writable param_keys) ∧
  store (exec argv w) =
    replay (key_puts (to_bytes cp) (accepted_keys writable param_keys)) (store w).
Proof.
  intros Hcp. rewrite (framed_choose_record argv w) in Hcp. simpl in Hcp.
  assert (puts (events argv) =
          key_puts (to_bytes cp) (accepted_keys writable param_keys) ∧
          outcome argv initial_world =
            (if forallb writable param_keys then Ok tt
             else Raise StoreWriteError)) as [Hputs Hout].
  { destruct (run_cases argv) as [(e & rd & _ & _ & Hc & _)
                                 | (cp' & rd & Hp & _ & Hc & Ho & He)].
    - rewrite Hc in Hcp. discriminate Hcp.
    - rewrite Hc in Hcp. injection Hcp as ->.
      rewrite He, puts_app, Hp, key_puts_are_puts. done. }
  rewrite (outcome_initial argv w). split; [exact Hout |].
  split; [exact Hputs |].
  rewrite exec_store. apply map_eq. intros k.
  rewrite !replay_lookup, <- Hputs.
  generalize (store w !! k). generalize (events argv).
  intros t. induction t as [| ev t IH]; intros o; [done |].
  destruct ev as [p | k' v]; simpl; [apply IH |].
  unfold puts in *. simpl. apply IH.
Qed.

(** X5: when the first argument resolves to a route with segments
    [p :: ps], the log reads of the run are the one read of [p], whatever
    the read gives and whatever the store does: no later segment is
    opened. *)
Theorem only_first_segment_is_read
    (argv : list string) (arg : string) (r : RouteT) (p : string)
    (ps : list string) :
  argv !! 1 = Some arg →
  Route arg = Ok r →
  qlog_paths r = Ok (p :: ps) →
  reads (events argv) = [EvLogRead p].
Proof.
  intros Harg Hr Hq.
  destruct (choose_record_first_segment _ _ _ _ _ initial_world Harg Hr Hq)
    as [[cp | e] Hc]; unfold events, exec.
  - rewrite (main_after_choice _ _ _ _ Hc), write_keys.
    cbn [snd trace store initial_world].
    by rewrite !reads_app, key_puts_no_reads.
  - by rewrite (main_choice_fails _ _ _ _ Hc).
Qed.

(** X6: a run that ends with an exception other than a store write error
    has written nothing: the store is as before. *)
Theorem failure_before_writes_leaves_store
    (argv : list string) (e : exn) (w : World) :
  outcome argv w = Raise e →
  e ≠ StoreWriteError →
  store (exec argv w) = store w ∧ puts (events argv) = [].
Proof.
  rewrite (outcome_initial argv w). intros Hout Hne.
  assert (puts (events argv) = []) as Hputs.
  { destruct (run_cases argv) as [(e' & rd & Hp & _ & _ & ->)
                                 | (cp & rd & _ & _ & _ & Ho & _)];
      [exact Hp |].
    rewrite Ho in Hout. destruct (forallb writable param_keys);
      [discriminate Hout | congruence]. }
  split; [| exact Hputs]. rewrite exec_store. by apply replay_no_puts.
Qed.

(** X7: on a store that accepts the three keys a run is all or nothing:
    it succeeds with the three writes of one record's encoding, or it
    fails with the store as before and no write. *)
Theorem accepting_store_all_or_nothing (argv : list string) (w : World) :
  (∀ k, k ∈ param_keys → writable k = true) →
  (∃ cp, outcome argv w = Ok tt ∧
         puts (events argv) = three_puts (to_bytes cp)) ∨
  (∃ e, outcome argv w = Raise e ∧ store (exec argv w) = store w ∧
        puts (events argv) = []).
Proof.
  intros Hw. apply all_writable_iff in Hw.
  rewrite (outcome_initial argv w), exec_store.
  destruct (run_cases argv) as [(e & rd & Hp & Ho & _ & He)
                               | (cp & rd & Hp & _ & _ & Ho & He)].
  - right. exists e. rewrite He. split; [done |].
    split; [by apply replay_no_puts | done].
  - left. exists cp. rewrite Ho, He, Hw, (accepted_all _ Hw).
    split; [done |]. by rewrite puts_app, Hp.
Qed.

(** X8: a run succeeds exactly when there is a first argument, the route
    resolver gives it a route with at least one segment, the log reader
    reads the first segment, some record there is tagged ["carParams"]
    and the first such record gives its payload, and the store accepts
    the three keys. *)
Theorem run_succeeds_iff (argv : list string) (w : World) :
  outcome argv w = Ok tt ↔
  ∃ arg r p ps msgs m0 cps cp,
    argv !! 1 = Some arg ∧ Route arg = Ok r ∧ qlog_paths r = Ok (p :: ps) ∧
    LogReader p = Ok msgs ∧
    List.filter (λ m, bool_decide (which m = "carParams")) msgs = m0 :: cps ∧
    carParams m0 = Ok cp ∧
    ∀ k, k ∈ param_keys → writable k = true.
Proof.
  unfold outcome. split.
  - destruct (choose_record argv w) as [[cp | e] w0] eqn:Hc.
    + rewrite (main_after_choice _ _ _ _ Hc), write_keys. cbn [fst].
      destruct (forallb writable param_keys) eqn:Hall; [| discriminate].
      intros _.
      destruct (choose_record_ok_inv _ _ _ _ Hc)
        as (arg & r & p & ps & msgs & m0 & cps & H1 & H2 & H3 & H4 & H5 & H6).
      exists arg, r, p, ps, msgs, m0, cps, cp.
      repeat (split; [done |]). by apply all_writable_iff.
    + rewrite (main_choice_fails _ _ _ _ Hc). discriminate.
  - intros (arg & r & p & ps & msgs & m0 & cps & cp
            & H1 & H2 & H3 & H4 & H5 & H6 & Hw).
    assert (choose_record argv w =
            (Ok cp, mkWorld (store w) (trace w ++ [EvLogRead p]))) as Hc.
    { rewrite (choose_record_resolved _ _ _ _ _ _ _ H1 H2 H3 H4). cbv zeta.
      rewrite H5, (bind_index_some (m0 :: cps) 0 m0) by done.
      rewrite H6. reflexivity. }
    rewrite (main_after_choice _ _ _ _ Hc), write_keys. cbn [fst].
    apply all_writable_iff in Hw. by rewrite Hw.
Qed.

(** X9: a run never reads the store: from two worlds it ends the same
    way and adds the same events to the trace, and a key that holds the
    same value in both stores before the runs holds the same value in
    both after. *)
Theorem run_ignores_prior_world (argv : list string) (w1 w2 : World) :
  outcome argv w1 = outcome argv w2 ∧
  (∃ t, trace (exec argv w1) = trace w1 ++ t ∧
        trace (exec argv w2) = trace w2 ++ t) ∧
  ∀ k, store w1 !! k = store w2 !! k →
       store (exec argv w1) !! k = store (exec argv w2) !! k.
Proof.
  split; [by rewrite (outcome_initial argv w1), (outcome_initial argv w2) |].
  split; [exists (events argv); by rewrite !exec_trace |].
  intros k Hk. rewrite !exec_store, !replay_lookup. by rewrite Hk.
Qed.

End FurtherProperties.

(** ** Runs along the failure paths *)

(** A run on a route the resolver does not know ends with the resolver's
    exception and leaves the world alone. *)
Lemma resolver_failure_propagates_witness :
  main (C := Sample.collaborators) [Sample.prog; "no-such-route"] initial_world
    = (Raise ResolutionError, initial_world).
Proof.
  apply (resolver_failure_propagates (C := Sample.collaborators)
           [Sample.prog; "no-such-route"] "no-such-route"
           ResolutionError initial_world).
  - reflexivity.
  - left. reflexivity.
Defined.

(** A run on the route without segments ends with an index error and
    leaves the world alone. *)
Lemma empty_segment_list_raises_index_error_witness :
  main (C := Faulty.collaborators) [Sample.prog; "route-without-segments"]
       initial_world
    = (Raise IndexError, initial_world).
Proof.
  apply (empty_segment_list_raises_index_error (C := Faulty.collaborators)
           [Sample.prog; "route-without-segments"] "route-without-segments"
           "route-without-segments" initial_world).
  - reflexivity.
  - reflexivity.
  - reflexivity.
Defined.

(** A run on the route whose segment cannot be read ends with the
    reader's exception after the one read. *)
Lemma log_read_failure_propagates_witness :
  main (C := Faulty.collaborators) [Sample.prog; "route-unreadable"] initial_world
    = (Raise LogReadError,
       mkWorld ∅ [EvLogRead "route-unreadable--0/qlog.bz2"]).
Proof.
  apply (log_read_failure_propagates (C := Faulty.collaborators)
           [Sample.prog; "route-unreadable"] "route-unreadable"
           "route-unreadable" "route-unreadable--0/qlog.bz2" []
           LogReadError initial_world).
  - reflexivity.
  - reflexivity.
  - reflexivity.
  - reflexivity.
Defined.

(** On the store that accepts ["CarParams"] only, the run writes that key
    and ends with a store write error: the other two keys stay unset. *)
Lemma writes_stop_at_first_refusal_witness :
  outcome (C := Faulty.collaborators) Sample.argv_with_params initial_world
    = Raise StoreWriteError ∧
  puts (events (C := Faulty.collaborators) Sample.argv_with_params)
    = [EvPut "CarParams" (Sample.encode {| Sample.mass := 1500 |})] ∧
  store (exec (C := Faulty.collaborators) Sample.argv_with_params initial_world)
    = <["CarParams" := Sample.encode {| Sample.mass := 1500 |}]> ∅.
Proof.
  apply (writes_stop_at_first_refusal (C := Faulty.collaborators)
           Sample.argv_with_params {| Sample.mass := 1500 |} initial_world).
  reflexivity.
Defined.

(** The route of the sample installation has two segments; the run reads
    the first one only. *)
Lemma only_first_segment_is_read_witness :
  reads (events (C := Sample.collaborators) Sample.argv_with_params)
    = [EvLogRead "route-2023-01-01--00-00-00--0/qlog.bz2"].
Proof.
  apply (only_first_segment_is_read (C := Sample.collaborators)
           Sample.argv_with_params Sample.route_with_params
           Sample.route_with_params
           "route-2023-01-01--00-00-00--0/qlog.bz2"
           ["route-2023-01-01--00-00-00--1/qlog.bz2"]).
  - reflexivity.
  - reflexivity.
  - reflexivity.
Defined.

(** The run that ends with an index error for want of a parameter record
    has written nothing. *)
Lemma failure_before_writes_leaves_store_witness :
  store (exec (C := Sample.collaborators) Sample.argv_without_params initial_world)
    = store initial_world ∧
  puts (events (C := Sample.collaborators) Sample.argv_without_params) = [].
Proof.
  apply (failure_before_writes_leaves_store (C := Sample.collaborators)
           Sample.argv_without_params IndexError initial_world).
  - reflexivity.
  - discriminate.
Defined.

(** The sample store accepts every key: the run on the route with
    parameter records is one of the two cases. *)
Lemma accepting_store_all_or_nothing_witness :
  (∃ cp : Sample.Params,
     outcome (C := Sample.collaborators) Sample.argv_with_params initial_world
       = Ok tt ∧
     puts (events (C := Sample.collaborators) Sample.argv_with_params)
       = three_puts (Sample.encode cp)) ∨
  (∃ e,
     outcome (C := Sample.collaborators) Sample.argv_with_params initial_world
       = Raise e ∧
     store (exec (C := Sample.collaborators) Sample.argv_with_params initial_world)
       = store initial_world ∧
     puts (events (C := Sample.collaborators) Sample.argv_with_params) = []).
Proof.
  apply (accepting_store_all_or_nothing (C := Sample.collaborators)
           Sample.argv_with_params initial_world).
  intros k _. reflexivity.
Defined.
